(** * token_rate_limiter.token_bucket: the lazy-refill token bucket

    A shallow embedding of [limit_and_tokenize]
    (src/token_rate_limiter/token_bucket.py) and the properties of its
    specification.

    Numbers.  Python's [int] is [Z].  Python's [float] is idealised as
    an exact rational ([Qc], canonical fractions, so that equal numbers
    are equal terms): every float operation is taken to be exact, and
    the non-finite floats (inf, nan) are not represented.  A Python
    number is an [int] or a [float] ([num]); arithmetic follows Python's
    promotion rules, which decide e.g. what [max(0, x)] returns.

    Effects.  The function reads the clock once and talks to Redis.
    Here the reading of [time.time()] and the store are arguments, and
    the store after the call is returned with the result; a raised
    exception is a result ([Raise]) and leaves the store as it was.  A
    pipeline is the sequence of its commands. *)

From Stdlib Require Import ZArith QArith Qcanon Qround Lqa Lia.
From Stdlib Require Import String Ascii List.
From stdpp Require Import base numbers option list strings gmap.

Local Open Scope Z_scope.

(** ** Python values *)

Module Py.

(** The exceptions the function can meet. *)
Inductive exn := ValueError | TypeError | ZeroDivisionError | OverflowError.

Global Instance exn_eq_dec : EqDecision exn.
Proof. solve_decision. Defined.

(** A computation that returns or raises. *)
Inductive outcome (A : Type) :=
  | Ok (a : A)
  | Raise (e : exn).
Global Arguments Ok {A} a.
Global Arguments Raise {A} e.

Global Instance outcome_eq_dec `{EqDecision A} : EqDecision (outcome A).
Proof. solve_decision. Defined.

Definition bind {A B} (m : outcome A) (k : A → outcome B) : outcome B :=
  match m with
  | Ok a => k a
  | Raise e => Raise e
  end.

Global Instance outcome_bind : MBind outcome := λ A B k m, bind m k.
Global Instance outcome_ret : MRet outcome := λ A a, Ok a.
Global Instance outcome_fmap : FMap outcome := λ A B f m, bind m (λ a, Ok (f a)).

(** [try: m except (e1, e2, ...): h] *)
Definition try_except {A} (m : outcome A) (caught : list exn) (h : outcome A)
    : outcome A :=
  match m with
  | Ok a => Ok a
  | Raise e => if bool_decide (e ∈ caught) then h else Raise e
  end.

(** A Python number: [int] or [float]. *)
Inductive num :=
  | NInt (z : Z)
  | NFloat (q : Qc).

Global Instance num_eq_dec : EqDecision num.
Proof. solve_decision. Defined.

(** The mathematical value of a number. *)
Definition num_val (a : num) : Qc :=
  match a with
  | NInt z => Qc_of_Z z
  | NFloat q => q
  end.

(** A float literal with an integral value, such as [60.0]. *)
Definition float_lit (z : Z) : num := NFloat (Qc_of_Z z).

(** [a + b], [a - b], [a * b]: an [int] only when both operands are. *)
Definition add (a b : num) : num :=
  match a, b with
  | NInt x, NInt y => NInt (x + y)
  | _, _ => NFloat (num_val a + num_val b)
  end.

Definition sub (a b : num) : num :=
  match a, b with
  | NInt x, NInt y => NInt (x - y)
  | _, _ => NFloat (num_val a - num_val b)
  end.

Definition mul (a b : num) : num :=
  match a, b with
  | NInt x, NInt y => NInt (x * y)
  | _, _ => NFloat (num_val a * num_val b)
  end.

(** [a / b]: true division, always a [float]; a zero divisor raises. *)
Definition truediv (a b : num) : outcome num :=
  if bool_decide (num_val b = 0%Qc) then Raise ZeroDivisionError
  else Ok (NFloat (num_val a / num_val b)).

(** [a / b] for a divisor that is a non-zero literal. *)
Definition div_lit (a b : num) : num := NFloat (num_val a / num_val b).

(** [max(0, x)] for a float [x]: the float when it is positive, the
    [int] 0 otherwise. *)
Definition clamp (x : Qc) : num :=
  if bool_decide (0 < x)%Qc then NFloat x else NInt 0.

(** The greater of two rationals, the first on a tie. *)
Definition qmax (x y : Qc) : Qc := if bool_decide (x < y)%Qc then y else x.

(** [a > b] *)
Definition gt (a b : num) : bool := bool_decide (num_val b < num_val a)%Qc.

(** [max(a, b)]: the first argument is kept unless the second is
    strictly greater, so [max(0, x)] is the [int] 0 for every [x <= 0]. *)
Definition max (a b : num) : num := if gt b a then b else a.

(** [int(x)] for a float: truncation towards zero. *)
Definition int_of_float (q : Qc) : Z := Z.quot (Qnum q) (Z.pos (Qden q)).

(** Rounding to the nearest integer, ties to the even one. *)
Definition round_half_even (q : Qc) : Z :=
  let f := Qfloor q in
  let r := (q - Qc_of_Z f)%Qc in
  let half := Q2Qc (1 # 2) in
  if bool_decide (r < half)%Qc then f
  else if bool_decide (half < r)%Qc then f + 1
  else if Z.even f then f else f + 1.

(** [round(x, ndigits)] for [ndigits >= 0]: an [int] is returned as it
    is, a [float] is rounded to the closest multiple of [10^-ndigits],
    ties to the even choice. *)
Definition round (x : num) (ndigits : Z) : num :=
  match x with
  | NInt z => NInt z
  | NFloat q =>
      let scale := Qc_of_Z (10 ^ ndigits) in
      NFloat (Qc_of_Z (round_half_even (q * scale)) / scale)
  end.

(** ** Reading a number from text: [int(b)] and [float(b)]

    Both strip ASCII white space at the two ends, take one optional
    sign, and read decimal digits in which single underscores may
    separate digits.  Anything else raises [ValueError]. *)

Definition is_space (c : ascii) : bool :=
  let n := nat_of_ascii c in
  bool_decide (n = 32 ∨ (9 ≤ n ∧ n ≤ 13))%nat.

Definition digit_of (c : ascii) : option Z :=
  let n := Z.of_nat (nat_of_ascii c) in
  if bool_decide (48 ≤ n ∧ n ≤ 57) then Some (n - 48) else None.

Fixpoint lstrip (l : list ascii) : list ascii :=
  match l with
  | c :: r => if is_space c then lstrip r else l
  | [] => []
  end.

Definition strip (l : list ascii) : list ascii :=
  rev (lstrip (rev (lstrip l))).

(** An optional sign: [true] for a minus. *)
Definition take_sign (l : list ascii) : bool * list ascii :=
  match l with
  | c :: r =>
      if bool_decide (c = "-"%char) then (true, r)
      else if bool_decide (c = "+"%char) then (false, r)
      else (false, l)
  | [] => (false, [])
  end.

(** The longest run [d (_? d)*] at the head of the text, and the rest. *)
Fixpoint digit_run (l : list ascii) : list Z * list ascii :=
  match l with
  | [] => ([], [])
  | c :: r =>
      match digit_of c with
      | None => ([], l)
      | Some d =>
          match r with
          | [] => ([d], [])
          | u :: r' =>
              if bool_decide (u = "_"%char) then
                match r' with
                | [] => ([d], r)
                | c' :: _ =>
                    match digit_of c' with
                    | Some _ => let '(ds, rest) := digit_run r' in (d :: ds, rest)
                    | None => ([d], r)
                    end
                end
              else let '(ds, rest) := digit_run r in (d :: ds, rest)
          end
      end
  end.

Definition digits_value (ds : list Z) : Z :=
  fold_left (λ acc d, acc * 10 + d) ds 0.

Definition signed (neg : bool) (z : Z) : Z := if neg then - z else z.

(** [int(b)] for a byte string, base 10.  (The interpreter's cap on the
    number of digits of one conversion is not modelled.) *)
Definition int_of_text (s : string) : outcome Z :=
  let '(neg, l) := take_sign (strip (list_ascii_of_string s)) in
  match digit_run l with
  | (d :: ds, []) => Ok (signed neg (digits_value (d :: ds)))
  | _ => Raise ValueError
  end.

(** [10 ** k] as a rational, for any integer [k]. *)
Definition pow10 (k : Z) : Qc :=
  if bool_decide (0 ≤ k) then Qc_of_Z (10 ^ k)
  else (/ Qc_of_Z (10 ^ (- k)))%Qc.

(** The exponent part: nothing, or [e] or [E], a sign and digits. *)
Definition exponent (l : list ascii) : option Z :=
  match l with
  | [] => Some 0
  | c :: r =>
      if bool_decide (c = "e"%char ∨ c = "E"%char) then
        let '(neg, r) := take_sign r in
        match digit_run r with
        | (d :: ds, []) => Some (signed neg (digits_value (d :: ds)))
        | _ => None
        end
      else None
  end.

(** [float(b)] for a byte string: digits with an optional fraction and
    an optional exponent.  The texts of the non-finite floats (inf,
    nan) have no rational value and are refused here. *)
Definition float_of_text (s : string) : outcome Qc :=
  let '(neg, l) := take_sign (strip (list_ascii_of_string s)) in
  let '(ip, l) := digit_run l in
  let '(fp, l) :=
    match l with
    | c :: r => if bool_decide (c = "."%char) then digit_run r else ([], l)
    | [] => ([], [])
    end in
  match ip ++ fp, exponent l with
  | _ :: _, Some e =>
      Ok (Qc_of_Z (signed neg (digits_value (ip ++ fp)))
          * pow10 (e - Z.of_nat (length fp)))%Qc
  | _, _ => Raise ValueError
  end.

End Py.

(** ** The Redis store

    A hash per key, each with an optional time to live (seconds, as
    last set by EXPIRE).  Redis holds byte strings; redis-py writes a
    Python [int] or [float] as its decimal text, which [int()] and
    [float()] read back to the number written ([float(repr(x)) == x]).
    The text of a number written by the client is therefore kept as the
    number itself ([RInt], [RFloat]); any other content is [RText]. *)

Module Redis.

Inductive rvalue :=
  | RText (s : string)
  | RInt (z : Z)
  | RFloat (q : Qc).

Global Instance rvalue_eq_dec : EqDecision rvalue.
Proof. solve_decision. Defined.

Record rhash := RHash {
  fields : gmap string rvalue;
  ttl : option Z
}.

Global Instance rhash_eq_dec : EqDecision rhash.
Proof. solve_decision. Defined.

Abbreviation redis := (gmap string rhash).

(** HGET key field: [None] when the key or the field is missing. *)
Definition hget (r : redis) (key field : string) : option rvalue :=
  h ← r !! key; fields h !! field.

(** HSET key field value ...: creates the hash when it is missing and
    leaves its other fields and its time to live as they are. *)
Definition hset (r : redis) (key : string) (mapping : list (string * rvalue))
    : redis :=
  let h := default (RHash ∅ None) (r !! key) in
  <[key := RHash (foldl (λ m kv, <[kv.1 := kv.2]> m) (fields h) mapping)
                 (ttl h)]> r.

(** EXPIRE key seconds: no effect on a missing key. *)
Definition expire (r : redis) (key : string) (seconds : Z) : redis :=
  alter (λ h, RHash (fields h) (Some seconds)) key r.

(** What the client sends for a Python number. *)
Definition encode (a : Py.num) : rvalue :=
  match a with
  | Py.NInt z => RInt z
  | Py.NFloat q => RFloat q
  end.

(** The truth value of a reply: [None] and the empty text are false. *)
Definition truthy (v : option rvalue) : bool :=
  match v with
  | None => false
  | Some (RText s) => negb (bool_decide (s = ""%string))
  | Some _ => true
  end.

(** [int(v)] on a reply.  The text of a float always has a point, an
    exponent or letters, which [int()] refuses. *)
Definition py_int (v : option rvalue) : Py.outcome Z :=
  match v with
  | None => Py.Raise Py.TypeError
  | Some (RText s) => Py.int_of_text s
  | Some (RInt z) => Py.Ok z
  | Some (RFloat _) => Py.Raise Py.ValueError
  end.

(** [float(v)] on a reply. *)
Definition py_float (v : option rvalue) : Py.outcome Qc :=
  match v with
  | None => Py.Raise Py.TypeError
  | Some (RText s) => Py.float_of_text s
  | Some (RInt z) => Py.Ok (Qc_of_Z z)
  | Some (RFloat q) => Py.Ok q
  end.

End Redis.


(** ** The limiter *)

Module Limiter.
Import Py Redis.

(** The dict returned when the limit is reached. *)
Record payload := Payload {
  error : string;
  retry_after : num;
  tokens_requested : Z;
  tokens_available : num;
  user_token_limit : Z
}.

Global Instance payload_eq_dec : EqDecision payload.
Proof. solve_decision. Defined.

(** What the function returns: the tokens, or the dict. *)
Inductive response :=
  | Tokens (token_ids : list Z)
  | Limited (p : payload).

Global Instance response_eq_dec : EqDecision response.
Proof. solve_decision. Defined.

(** A key template, applied as [template.format(user_id=user_id)]. *)
Definition key_template := string → string.

Definition config_key_template : key_template :=
  λ user_id, ("ratelimit:config:" +:+ user_id)%string.
Definition usage_key_template : key_template :=
  λ user_id, ("ratelimit:" +:+ user_id)%string.

(** Lines 28-32: the user's limit, or the default when the stored one
    is missing, empty or refused by [int()]. *)
Definition resolve_limit (r : redis) (config_key : string)
    (default_tokens_per_minute : Z) : outcome Z :=
  let limit_str := hget r config_key "limit" in
  try_except
    (if truthy limit_str then py_int limit_str
     else Ok default_tokens_per_minute)
    [ValueError; TypeError]
    (Ok default_tokens_per_minute).

(** Lines 35-41: the stored usage; a missing or empty field reads as no
    usage, refilled now.  [float()] is not guarded here. *)
Definition read_usage (r : redis) (usage_key : string) (now : Z)
    : outcome (num * num) :=
  let tokens_str := hget r usage_key "tokens" in
  let last_refill_str := hget r usage_key "last_refill" in
  tokens_used ←
    (if truthy tokens_str then NFloat <$> py_float tokens_str
     else Ok (float_lit 0));
  last_refill ←
    (if truthy last_refill_str then NFloat <$> py_float last_refill_str
     else Ok (NInt now));
  Ok (tokens_used, last_refill).

(** Line 46 as a function of the elapsed time: the usage that enters
    the decision. *)
Definition refilled (tokens_per_minute : Z) (tokens_used elapsed : num) : num :=
  let refill := mul (div_lit elapsed (float_lit 60)) (NInt tokens_per_minute) in
  max (NInt 0) (sub tokens_used refill).

(** Lines 44-47: the working [(tokens_used, last_refill)]. *)
Definition refill_step (tokens_per_minute : Z) (tokens_used last_refill : num)
    (now : Z) : num * num :=
  let elapsed := sub (NInt now) last_refill in
  let tokens_used := refilled tokens_per_minute tokens_used elapsed in
  let last_refill := NInt now in
  (tokens_used, last_refill).

(** Lines 49-71: reject without writing, or write and admit. *)
Definition decide_request (token_ids : list Z) (r : redis) (usage_key : string)
    (tokens_per_minute : Z) (tokens_used last_refill : num)
    : outcome response * redis :=
  let token_count := Z.of_nat (length token_ids) in
  if gt (add tokens_used (NInt token_count)) (NInt tokens_per_minute) then
    let tokens_over :=
      sub (add tokens_used (NInt token_count)) (NInt tokens_per_minute) in
    (q ← truediv tokens_over (NInt tokens_per_minute);
     let retry_after := mul q (NInt 60) in
     Ok (Limited {|
       error := "Rate limit exceeded";
       retry_after := round retry_after 2;
       tokens_requested := token_count;
       tokens_available := max (NInt 0) (sub (NInt tokens_per_minute) tokens_used);
       user_token_limit := tokens_per_minute |}),
     r)
  else
    let tokens_used := add tokens_used (NInt token_count) in
    let r := hset r usage_key [("tokens"%string, encode tokens_used);
                               ("last_refill"%string, encode last_refill)] in
    let r := expire r usage_key 120 in
    (Ok (Tokens token_ids), r).

(** Lines 24-47: the limit in force and the working
    [(tokens_used, last_refill)] that reach the decision. *)
Definition working_state (user_id : string) (clock : Qc) (r : redis)
    (config_key_template usage_key_template : key_template)
    (default_tokens_per_minute : Z) : outcome (Z * (num * num)) :=
  let now := int_of_float clock in
  tokens_per_minute ←
    resolve_limit r (config_key_template user_id) default_tokens_per_minute;
  usage ← read_usage r (usage_key_template user_id) now;
  Ok (tokens_per_minute,
      refill_step tokens_per_minute usage.1 usage.2 now).

(** [limit_and_tokenize], with the reading of [time.time()] and the
    store made explicit: the result and the store after the call. *)
Definition limit_and_tokenize (token_ids : list Z) (user_id : string)
    (clock : Qc) (r : redis)
    (config_key_template usage_key_template : key_template)
    (default_tokens_per_minute : Z) : outcome response * redis :=
  match
    working_state user_id clock r config_key_template usage_key_template
      default_tokens_per_minute
  with
  | Raise e => (Raise e, r)
  | Ok (tokens_per_minute, (tokens_used, last_refill)) =>
      decide_request token_ids r (usage_key_template user_id)
        tokens_per_minute tokens_used last_refill
  end.

(** A sequential execution: calls run one after the other on the
    store the previous one left.  Each entry of the trace is the store
    before the call, the call, and what it returned and left. *)
Record call := Call {
  call_token_ids : list Z;
  call_user_id : string;
  call_clock : Qc;
  call_default : Z
}.

Definition run_call (cfg usage : key_template) (r : redis) (c : call)
    : outcome response * redis :=
  limit_and_tokenize (call_token_ids c) (call_user_id c) (call_clock c) r
    cfg usage (call_default c).

Fixpoint run_calls (cfg usage : key_template) (r : redis) (cs : list call)
    : list (redis * call * (outcome response * redis)) :=
  match cs with
  | [] => []
  | c :: cs =>
      let out := run_call cfg usage r c in
      (r, c, out) :: run_calls cfg usage out.2 cs
  end.

(** What is asked of one entry of a trace: an admitted call leaves a
    [tokens] value between 0 and the limit that was in force for it. *)
Definition write_within_limit (cfg usage : key_template)
    (entry : redis * call * (outcome response * redis)) : Prop :=
  let '(r, c, (res, r')) := entry in
  ∀ ids', res = Ok (Tokens ids') →
    ∃ (T : Z) (q : Qc),
      resolve_limit r (cfg (call_user_id c)) (call_default c) = Ok T
      ∧ py_float (hget r' (usage (call_user_id c)) "tokens") = Ok q
      ∧ (0 ≤ q)%Qc ∧ (q ≤ Qc_of_Z T)%Qc.

(** Stores for the scenarios: one user with a stored limit, one user
    with a stored usage record. *)
Definition limit_store (user_id : string) (limit : rvalue) : redis :=
  {[ config_key_template user_id := RHash {[ "limit"%string := limit ]} None ]}.

Definition usage_store (user_id : string) (tokens last_refill : rvalue)
    : redis :=
  {[ usage_key_template user_id :=
       RHash {[ "tokens"%string := tokens;
                "last_refill"%string := last_refill ]} (Some 120%Z) ]}.


End Limiter.

(** ** Accounting over a sequence of calls *)

Module Accounting.
Import Py Redis Limiter.

(** The [now] of a call: line 24. *)
Definition call_now (c : call) : Z := int_of_float (call_clock c).

(** The number of tokens one entry of a trace let through. *)
Definition admitted_count
    (entry : redis * call * (outcome response * redis)) : Z :=
  match entry with
  | (_, _, (Ok (Tokens ids), _)) => Z.of_nat (length ids)
  | _ => 0
  end.

(** The number of tokens a trace let through. *)
Definition admitted_tokens
    (trace : list (redis * call * (outcome response * redis))) : Z :=
  foldr (λ entry acc, admitted_count entry + acc) 0 trace.

(** The calls come in the order of their [now], none before [t]. *)
Fixpoint clocks_from (t : Z) (cs : list call) : Prop :=
  match cs with
  | [] => True
  | c :: cs => t ≤ call_now c ∧ clocks_from (call_now c) cs
  end.

(** The [now] of the last call, [t] when there is none. *)
Fixpoint last_now (t : Z) (cs : list call) : Z :=
  match cs with
  | [] => t
  | c :: cs => last_now (call_now c) cs
  end.

(** The usage a call at [now = t] would enter its decision with, under
    the limit [T] (lines 35-46); 0 when the record cannot be read. *)
Definition usage_at (T : Z) (r : redis) (usage_key : string) (t : Z) : Qc :=
  match read_usage r usage_key t with
  | Ok (tokens_used, last_refill) =>
      num_val (refilled T tokens_used (sub (NInt t) last_refill))
  | Raise _ => Q2Qc 0
  end.

End Accounting.

(** * Properties *)

Import Py Redis Limiter Accounting.
Local Open Scope Qc_scope.

(** ** Rational arithmetic

    Goals over [Qc] are moved to [Q], where [lra] and [nra] decide
    them. *)

Lemma Qc_eq_Q (x y : Qc) : x = y ↔ (this x == this y)%Q.
Proof. split; [by intros ->|apply Qc_is_canon]. Qed.

Ltac closed_pos p :=
  match p with
  | xH => idtac
  | xO ?q => closed_pos q
  | xI ?q => closed_pos q
  end.

Ltac closed_Z z :=
  match z with
  | Z0 => idtac
  | Zpos ?p => closed_pos p
  | Zneg ?p => closed_pos p
  end.

Ltac qc_to_q :=
  repeat match goal with
  | |- context [num_val ?a] =>
      let x := fresh "x" in set (x := num_val a) in *; clearbody x
  | H : context [num_val ?a] |- _ =>
      let x := fresh "x" in set (x := num_val a) in *; clearbody x
  end;
  repeat match goal with
  | H : @eq Qc _ _ |- _ => apply Qc_eq_Q in H
  | H : ¬ @eq Qc _ _ |- _ => rewrite Qc_eq_Q in H
  end;
  rewrite ?Qc_eq_Q;
  unfold Qclt, Qcle, Qcminus, Qcdiv, Qcplus, Qcmult, Qcopp, Qcinv,
    Qc_of_Z, Q2Qc in *;
  cbn [this] in *;
  repeat match goal with
  | H : context [Qred ?q] |- _ => rewrite (Qred_correct q) in H
  | |- context [Qred ?q] => rewrite (Qred_correct q)
  end;
  repeat match goal with
  | H : context [inject_Z ?z] |- _ =>
      closed_Z z; change (inject_Z z) with (z # 1)%Q in H
  | |- context [inject_Z ?z] =>
      closed_Z z; change (inject_Z z) with (z # 1)%Q
  end;
  repeat match goal with
  | H : context [Qinv (?z # ?p)] |- _ =>
      closed_Z z; closed_pos p;
      let v := eval vm_compute in (Qinv (z # p)) in
      change (Qinv (z # p)) with v in H
  | |- context [Qinv (?z # ?p)] =>
      closed_Z z; closed_pos p;
      let v := eval vm_compute in (Qinv (z # p)) in
      change (Qinv (z # p)) with v
  end.

Ltac qc_lra := qc_to_q; lra.
Ltac qc_nra := qc_to_q; nra.

Lemma Z2Qc_nonzero (z : Z) : z ≠ 0%Z → Qc_of_Z z ≠ 0.
Proof. intros Hz. rewrite <-Z2Qc_inj_0. by intros ?%Z2Qc_inj. Qed.

(** ** Python numbers *)

Arguments add : simpl never.
Arguments sub : simpl never.
Arguments mul : simpl never.
Arguments max : simpl never.
Arguments gt : simpl never.
Arguments truediv : simpl never.
Arguments round : simpl never.
Arguments refilled : simpl never.

Lemma num_val_add a b : num_val (add a b) = num_val a + num_val b.
Proof. destruct a, b; unfold add; simpl; auto using Z2Qc_inj_add. Qed.

Lemma num_val_sub a b : num_val (sub a b) = num_val a - num_val b.
Proof. destruct a, b; unfold sub; simpl; auto using Z2Qc_inj_sub. Qed.

Lemma num_val_mul a b : num_val (mul a b) = num_val a * num_val b.
Proof. destruct a, b; unfold mul; simpl; auto using Z2Qc_inj_mul. Qed.

Lemma gt_true a b : gt a b = true ↔ num_val b < num_val a.
Proof. unfold gt. by rewrite bool_decide_eq_true. Qed.

Lemma gt_false a b : gt a b = false ↔ num_val a ≤ num_val b.
Proof. unfold gt. by rewrite bool_decide_eq_false, Qcle_ngt. Qed.

Lemma num_val_max a b : num_val (max a b) = qmax (num_val a) (num_val b).
Proof. unfold max, gt, qmax. by case_bool_decide. Qed.

Lemma qmax_0_nonneg x : 0 ≤ qmax 0 x.
Proof. unfold qmax. case_bool_decide; qc_lra. Qed.

(** ** Reading the stored limit *)

Lemma py_int_truthy v z : py_int v = Ok z → truthy v = true.
Proof.
  destruct v as [[s| |]|]; simpl; try done.
  intros Hs. case_bool_decide; [subst s; discriminate Hs|done].
Qed.

Lemma py_int_raises v e : py_int v = Raise e → e = ValueError ∨ e = TypeError.
Proof.
  destruct v as [[s| |]|]; simpl; try (intros [= <-]; auto; fail).
  unfold int_of_text.
  destruct (take_sign _) as [neg l], (digit_run l) as [[|??] [|??]];
    intros [= <-]; auto.
Qed.

Lemma resolve_limit_parsed r key d z :
  py_int (hget r key "limit") = Ok z → resolve_limit r key d = Ok z.
Proof.
  intros Hz. unfold resolve_limit.
  by rewrite (py_int_truthy _ _ Hz), Hz.
Qed.

Lemma resolve_limit_fallback r key d :
  truthy (hget r key "limit") = false ∨
    (∃ e, py_int (hget r key "limit") = Raise e) →
  resolve_limit r key d = Ok d.
Proof.
  unfold resolve_limit. intros [Hf|[e He]].
  - by rewrite Hf.
  - destruct (truthy _); [|done]. rewrite He. simpl.
    destruct (py_int_raises _ _ He) as [-> | ->]; done.
Qed.

Lemma resolve_limit_total r key d : ∃ T, resolve_limit r key d = Ok T.
Proof.
  destruct (py_int (hget r key "limit")) as [z|e] eqn:Hp.
  - eauto using resolve_limit_parsed.
  - exists d. apply resolve_limit_fallback. eauto.
Qed.

Lemma working_state_limit user clock r cfg usage d T :
  resolve_limit r (cfg user) d = Ok T →
  working_state user clock r cfg usage d =
    (u ← read_usage r (usage user) (int_of_float clock);
     Ok (T, refill_step T u.1 u.2 (int_of_float clock))).
Proof. intros HT. unfold working_state. by rewrite HT. Qed.

Lemma limit_and_tokenize_run ids user clock r cfg usage d T tu lr :
  resolve_limit r (cfg user) d = Ok T →
  read_usage r (usage user) (int_of_float clock) = Ok (tu, lr) →
  working_state user clock r cfg usage d
  = Ok (T, (refilled T tu (sub (NInt (int_of_float clock)) lr),
            NInt (int_of_float clock)))
  ∧ limit_and_tokenize ids user clock r cfg usage d
    = decide_request ids r (usage user) T
        (refilled T tu (sub (NInt (int_of_float clock)) lr))
        (NInt (int_of_float clock)).
Proof.
  intros HT Hu. unfold limit_and_tokenize.
  by rewrite (working_state_limit _ _ _ _ _ _ _ HT), Hu.
Qed.

Lemma refilled_val T tu e :
  num_val (refilled T tu e) =
    qmax 0 (num_val tu - num_val e / Qc_of_Z 60 * Qc_of_Z T).
Proof.
  unfold refilled. rewrite num_val_max, num_val_sub, num_val_mul.
  unfold div_lit, float_lit. cbn [num_val]. by rewrite Z2Qc_inj_0.
Qed.

Lemma refilled_nonneg T tu e : 0 ≤ num_val (refilled T tu e).
Proof. rewrite refilled_val. apply qmax_0_nonneg. Qed.


Lemma token_count_nonneg (ids : list Z) :
  0 ≤ Qc_of_Z (Z.of_nat (length ids)).
Proof. rewrite <-Z2Qc_inj_0, <-Z2Qc_inj_le. lia. Qed.

(** ** C1: which limit is in force *)




(** ** C9: a stored limit of zero *)



(** ** The decision *)

Lemma working_state_inv user clock r cfg usage d T u l :
  working_state user clock r cfg usage d = Ok (T, (u, l)) →
  ∃ tu lr,
    resolve_limit r (cfg user) d = Ok T
    ∧ read_usage r (usage user) (int_of_float clock) = Ok (tu, lr)
    ∧ u = refilled T tu (sub (NInt (int_of_float clock)) lr)
    ∧ l = NInt (int_of_float clock).
Proof.
  destruct (resolve_limit_total r (cfg user) d) as [T' HT].
  rewrite (working_state_limit _ _ _ _ _ _ _ HT).
  destruct (read_usage _ _ _) as [[tu lr]|e] eqn:Hu; [|done].
  intros [= <- <- <-]. by exists tu, lr.
Qed.

Lemma limit_and_tokenize_decide ids user clock r cfg usage d T u l :
  working_state user clock r cfg usage d = Ok (T, (u, l)) →
  limit_and_tokenize ids user clock r cfg usage d
  = decide_request ids r (usage user) T u l.
Proof. intros Hw. unfold limit_and_tokenize. by rewrite Hw. Qed.

Lemma decide_request_admit ids r key T u l :
  num_val u + Qc_of_Z (Z.of_nat (length ids)) ≤ Qc_of_Z T →
  decide_request ids r key T u l
  = (Ok (Tokens ids),
     expire (hset r key
               [("tokens"%string,
                 encode (add u (NInt (Z.of_nat (length ids)))));
                ("last_refill"%string, encode l)]) key 120).
Proof.
  intros Hle. unfold decide_request.
  rewrite (proj2 (gt_false _ _)); [done|].
  by rewrite num_val_add.
Qed.

Lemma decide_request_reject ids r key T u l :
  Qc_of_Z T < num_val u + Qc_of_Z (Z.of_nat (length ids)) →
  decide_request ids r key T u l
  = (q ← truediv (sub (add u (NInt (Z.of_nat (length ids)))) (NInt T))
               (NInt T);
     Ok (Limited {|
       error := "Rate limit exceeded";
       retry_after := round (mul q (NInt 60)) 2;
       tokens_requested := Z.of_nat (length ids);
       tokens_available := max (NInt 0) (sub (NInt T) u);
       user_token_limit := T |}),
     r).
Proof.
  intros Hlt. unfold decide_request.
  rewrite (proj2 (gt_true _ _)); [done|].
  by rewrite num_val_add.
Qed.

Lemma decide_request_cases ids r key T u l :
  (num_val u + Qc_of_Z (Z.of_nat (length ids)) ≤ Qc_of_Z T
   ∧ ∃ r', decide_request ids r key T u l = (Ok (Tokens ids), r'))
  ∨ (Qc_of_Z T < num_val u + Qc_of_Z (Z.of_nat (length ids))
     ∧ ((∃ p, decide_request ids r key T u l = (Ok (Limited p), r))
        ∨ decide_request ids r key T u l = (Raise ZeroDivisionError, r))).
Proof.
  destruct (Qclt_le_dec (Qc_of_Z T)
              (num_val u + Qc_of_Z (Z.of_nat (length ids)))) as [Hlt|Hle].
  - right. split; [done|]. rewrite decide_request_reject by done.
    unfold truediv. case_bool_decide; simpl; eauto.
  - left. split; [done|]. rewrite decide_request_admit by done. eauto.
Qed.

(** ** C4: the boundary *)



(** ** The writes of an admitted call *)

Section admitted_writes.
Context (r : redis) (key : string) (tokens last_refill : rvalue).

Let written : redis :=
  expire (hset r key [("tokens"%string, tokens);
                      ("last_refill"%string, last_refill)]) key 120.

Lemma written_tokens : hget written key "tokens" = Some tokens.
Proof.
  unfold written, hget, expire, hset.
  rewrite lookup_alter_eq, lookup_insert_eq. simpl.
  by rewrite lookup_insert_ne, lookup_insert_eq.
Qed.

Lemma written_last_refill :
  hget written key "last_refill" = Some last_refill.
Proof.
  unfold written, hget, expire, hset.
  rewrite lookup_alter_eq, lookup_insert_eq. simpl.
  by rewrite lookup_insert_eq.
Qed.

Lemma written_ttl : ttl <$> written !! key = Some (Some 120%Z).
Proof.
  unfold written, expire, hset.
  by rewrite lookup_alter_eq, lookup_insert_eq.
Qed.

Lemma written_other_field f :
  f ≠ "tokens"%string → f ≠ "last_refill"%string →
  hget written key f = hget r key f.
Proof.
  intros Ht Hl. unfold written, hget, expire, hset.
  rewrite lookup_alter_eq, lookup_insert_eq. simpl.
  rewrite !lookup_insert_ne by done.
  by destruct (r !! key).
Qed.

Lemma written_other_key k : k ≠ key → written !! k = r !! k.
Proof.
  intros Hk. unfold written, expire, hset.
  by rewrite lookup_alter_ne, lookup_insert_ne.
Qed.
End admitted_writes.

(** ** C5: what an admitted call returns and writes *)



(** ** C6: a rejection writes nothing *)

(** C6.  A rejected call leaves the store exactly as it found it: no
    field of the usage key is written and its time to live is not
    renewed, so the rejection consumes nothing. *)
Theorem rejection_leaves_store
    (ids : list Z) (user : string) (clock : Qc) (r : redis)
    (cfg usage : key_template) (d : Z) (p : payload) (r' : redis) :
  limit_and_tokenize ids user clock r cfg usage d = (Ok (Limited p), r') →
  r' = r
  ∧ (∀ f, hget r' (usage user) f = hget r (usage user) f)
  ∧ ttl <$> r' !! usage user = ttl <$> r !! usage user.
Proof.
  intros Hrun.
  assert (r' = r) as ->; [|done].
  unfold limit_and_tokenize in Hrun.
  destruct (working_state _ _ _ _ _ _) as [[T [u l]]|e]; [|by injection Hrun].
  destruct (decide_request_cases ids r (usage user) T u l)
    as [[_ [r'' Hd]]|[_ [[p' Hd]|Hd]]]; rewrite Hd in Hrun;
    [discriminate Hrun|by injection Hrun..].
Qed.

(** C6 on the second scenario: 500 used, 600 requested, limit 1000. *)
Lemma rejection_leaves_store_witness :
  let r := usage_store "u" (RInt 500) (RInt 100) in
  (limit_and_tokenize (repeat 7%Z 600) "u" (Qc_of_Z 100) r
     config_key_template usage_key_template 1000).2 = r.
Proof.
  intros r.
  set (run := limit_and_tokenize (repeat 7%Z 600) "u" (Qc_of_Z 100) r
                config_key_template usage_key_template 1000).
  assert (∃ p, run = (Ok (Limited p), run.2)) as [p Hp].
  { eexists. vm_compute. reflexivity. }
  exact (proj1 (rejection_leaves_store _ _ _ _ _ _ _ p run.2 Hp)).
Defined.

(** ** Rounding *)

Lemma round_half_even_near q :
  q - Q2Qc (1 # 2) ≤ Qc_of_Z (round_half_even q)
  ∧ Qc_of_Z (round_half_even q) ≤ q + Q2Qc (1 # 2).
Proof.
  unfold round_half_even.
  pose proof (Qfloor_le q) as Hlo. pose proof (Qlt_floor q) as Hhi.
  rewrite inject_Z_plus in Hhi.
  set (f := Qfloor q) in *. clearbody f.
  repeat case_bool_decide; [| |destruct (Z.even f)];
    rewrite ?Z2Qc_inj_add; split; qc_lra.
Qed.


(** ** C7: the rejection payload *)

Lemma decide_request_payload ids r key T u l p r' :
  decide_request ids r key T u l = (Ok (Limited p), r') →
  let c := Qc_of_Z (Z.of_nat (length ids)) in
  Qc_of_Z T ≠ 0
  ∧ Qc_of_Z T < num_val u + c
  ∧ p = {| error := "Rate limit exceeded";
           retry_after :=
             round (NFloat ((num_val u + c - Qc_of_Z T) / Qc_of_Z T
                            * Qc_of_Z 60)) 2;
           tokens_requested := Z.of_nat (length ids);
           tokens_available := max (NInt 0) (sub (NInt T) u);
           user_token_limit := T |}.
Proof.
  intros Hd c.
  destruct (decide_request_cases ids r key T u l)
    as [[_ [r'' Hd']]|[Hlt _]]; [rewrite Hd' in Hd; discriminate Hd|].
  rewrite decide_request_reject in Hd by done.
  unfold truediv in Hd. cbn [num_val] in Hd.
  case_bool_decide as Hz; [discriminate Hd|].
  cbn in Hd. injection Hd as <- _.
  split; [done|]. split; [done|].
  unfold mul. cbn [num_val]. by rewrite num_val_sub, num_val_add.
Qed.



(** ** C8: the refill is monotone *)



(** ** C10: the stored usage stays within the limit *)

Lemma py_float_encode (a : num) : py_float (Some (encode a)) = Ok (num_val a).
Proof. by destruct a. Qed.

Lemma limit_and_tokenize_admit_inv ids user clock r cfg usage d ids' r' :
  limit_and_tokenize ids user clock r cfg usage d = (Ok (Tokens ids'), r') →
  ∃ (T : Z) (u : num),
    working_state user clock r cfg usage d
      = Ok (T, (u, NInt (int_of_float clock)))
    ∧ num_val u + Qc_of_Z (Z.of_nat (length ids)) ≤ Qc_of_Z T
    ∧ ids' = ids
    ∧ r' = expire (hset r (usage user)
                     [("tokens"%string,
                       encode (add u (NInt (Z.of_nat (length ids)))));
                      ("last_refill"%string,
                       RInt (int_of_float clock))]) (usage user) 120.
Proof.
  intros Hrun.
  destruct (working_state user clock r cfg usage d)
    as [[T [u l]]|e] eqn:Hw;
    [|unfold limit_and_tokenize in Hrun; rewrite Hw in Hrun;
      discriminate Hrun].
  rewrite (limit_and_tokenize_decide _ _ _ _ _ _ _ _ _ _ Hw) in Hrun.
  destruct (working_state_inv _ _ _ _ _ _ _ _ _ Hw)
    as (tu & lr & _ & _ & _ & ->).
  exists T, u. split; [done|].
  destruct (decide_request_cases ids r (usage user) T u
              (NInt (int_of_float clock)))
    as [[Hle _]|[_ [[p Hp]|Hp]]];
    [|rewrite Hp in Hrun; discriminate Hrun..].
  rewrite decide_request_admit in Hrun by done.
  by injection Hrun as <- <-.
Qed.


Lemma admitted_tokens_bounded ids user clock r cfg usage d ids' r' :
  limit_and_tokenize ids user clock r cfg usage d = (Ok (Tokens ids'), r') →
  ∃ (T : Z) (q : Qc),
    resolve_limit r (cfg user) d = Ok T
    ∧ py_float (hget r' (usage user) "tokens") = Ok q
    ∧ 0 ≤ q ∧ q ≤ Qc_of_Z T.
Proof.
  intros (T & u & Hw & Hle & _ & ->)%limit_and_tokenize_admit_inv.
  destruct (working_state_inv _ _ _ _ _ _ _ _ _ Hw)
    as (tu & lr & HT & _ & -> & _).
  exists T, (num_val (add (refilled T tu (sub (NInt (int_of_float clock)) lr))
                          (NInt (Z.of_nat (length ids))))).
  split; [done|].
  rewrite written_tokens, py_float_encode, num_val_add.
  split; [done|]. split; [|done].
  pose proof (refilled_nonneg T tu (sub (NInt (int_of_float clock)) lr)).
  pose proof (token_count_nonneg ids). cbn [num_val]. qc_lra.
Qed.

(** C10.  In every sequential execution, from any store, each admitted
    call leaves under the user's usage key a [tokens] value that is at
    least 0 and at most the limit in force for that call. *)
Theorem stored_usage_within_limit
    (cfg usage : key_template) (cs : list call) (r : redis) :
  Forall (write_within_limit cfg usage) (run_calls cfg usage r cs).
Proof.
  revert r. induction cs as [|c cs IH]; intros r; simpl.
  - constructor.
  - constructor; [|apply IH].
    unfold write_within_limit.
    destruct (run_call cfg usage r c) as [res r'] eqn:Hrun.
    intros ids' ->. unfold run_call in Hrun.
    by apply admitted_tokens_bounded in Hrun.
Qed.

(** C10 on the first scenario followed by the second: the admitted
    call leaves 500 under the limit 1000. *)
Lemma stored_usage_within_limit_witness :
  let c1 := Call (repeat 7%Z 500) "u" (Qc_of_Z 100) 1000 in
  let c2 := Call (repeat 7%Z 600) "u" (Qc_of_Z 100) 1000 in
  ∃ (T : Z) (q : Qc),
    resolve_limit ∅ (config_key_template "u") 1000 = Ok T
    ∧ py_float (hget (run_call config_key_template usage_key_template ∅ c1).2
                  (usage_key_template "u") "tokens") = Ok q
    ∧ 0 ≤ q ∧ q ≤ Qc_of_Z T.
Proof.
  intros c1 c2.
  pose proof (stored_usage_within_limit config_key_template
                usage_key_template [c1; c2] ∅) as Htrace.
  apply Forall_inv in Htrace.
  apply (Htrace (repeat 7%Z 500)). reflexivity.
Defined.

(** ** A call that follows a rejection *)

Lemma refilled_clamp T tu e :
  refilled T tu e
  = clamp (num_val tu - num_val e / Qc_of_Z 60 * Qc_of_Z T).
Proof.
  unfold refilled, max, gt, clamp.
  set (x := num_val tu - num_val e / Qc_of_Z 60 * Qc_of_Z T).
  assert (sub tu (mul (div_lit e (float_lit 60)) (NInt T)) = NFloat x)
    as ->; [|cbn [num_val]; by rewrite Z2Qc_inj_0].
  unfold x, sub, mul, div_lit, float_lit. cbn [num_val]. by destruct tu.
Qed.

Lemma num_val_clamp x : num_val (clamp x) = qmax 0 x.
Proof.
  unfold clamp, qmax. case_bool_decide; [done|]. apply Z2Qc_inj_0.
Qed.





Lemma read_usage_retry r key now now' tu lr :
  read_usage r key now = Ok (tu, lr) →
  (truthy (hget r key "last_refill") = true
   ∧ read_usage r key now' = Ok (tu, lr))
  ∨ (truthy (hget r key "last_refill") = false
     ∧ lr = NInt now
     ∧ read_usage r key now' = Ok (tu, NInt now')).
Proof.
  unfold read_usage.
  destruct (if truthy (hget r key "tokens") then _ else _) as [t|e];
    [|done].
  destruct (truthy (hget r key "last_refill")).
  - destruct (NFloat <$> py_float _) as [l|e]; [|done].
    intros [= <- <-]. by left.
  - intros [= <- <-]. by right.
Qed.


(** ** Whole seconds *)






(** ** C3: the working [last_refill] *)



(** ** C2: retrying after [retry_after] *)





(** ** The scenarios of the specification *)

(** A fresh user asks for 500 tokens under the default limit 1000: the
    call is admitted and the record becomes 500 tokens, refilled now. *)
Example scenario_fresh_user :
  let ids := repeat 7%Z 500 in
  limit_and_tokenize ids "u" (Qc_of_Z 100) ∅
    config_key_template usage_key_template 1000
  = (Ok (Tokens ids), usage_store "u" (RInt 500) (RInt 100)).
Proof. apply (bool_decide_unpack _). by vm_compute. Qed.

(** A stored limit of 100 and 150 tokens asked for: rejected, with the
    stored limit reported and all of it available. *)
Example scenario_stored_limit :
  ∃ p, limit_and_tokenize (repeat 7%Z 150) "u" (Qc_of_Z 100)
         (limit_store "u" (RText "100"))
         config_key_template usage_key_template 1000
       = (Ok (Limited p), limit_store "u" (RText "100"))
     ∧ user_token_limit p = 100%Z
     ∧ tokens_available p = NInt 100.
Proof. eexists. split; [vm_compute; reflexivity|done]. Qed.

(** 1000 tokens in use, refilled 60 seconds ago under the limit 1000:
    the whole usage has been refilled and one token is admitted. *)
Example scenario_full_refill :
  limit_and_tokenize [7%Z] "u" (Qc_of_Z 160)
    (usage_store "u" (RInt 1000) (RInt 100))
    config_key_template usage_key_template 1000
  = (Ok (Tokens [7%Z]), usage_store "u" (RInt 1) (RInt 160)).
Proof. apply (bool_decide_unpack _). by vm_compute. Qed.

(** A clock that went back makes the refill negative and the usage
    grow: 500 in use, read 60 seconds before its [last_refill], counts
    as 1500. *)
Example scenario_clock_regression :
  working_state "u" (Qc_of_Z 40) (usage_store "u" (RInt 500) (RInt 100))
    config_key_template usage_key_template 1000
  = Ok (1000%Z, (NFloat (Qc_of_Z 1500), NInt 40)).
Proof. apply (bool_decide_unpack _). by vm_compute. Qed.

(** * Further properties of [limit_and_tokenize] *)

(** ** The outcomes of a call *)

Lemma limit_and_tokenize_cases ids user clock r cfg usage d :
  let c := Qc_of_Z (Z.of_nat (length ids)) in
  let now := int_of_float clock in
  (∃ T u,
     working_state user clock r cfg usage d = Ok (T, (u, NInt now))
     ∧ num_val u + c ≤ Qc_of_Z T
     ∧ limit_and_tokenize ids user clock r cfg usage d
       = (Ok (Tokens ids),
          expire (hset r (usage user)
                    [("tokens"%string,
                      encode (add u (NInt (Z.of_nat (length ids)))));
                     ("last_refill"%string, RInt now)]) (usage user) 120))
  ∨ (∃ T u,
       working_state user clock r cfg usage d = Ok (T, (u, NInt now))
       ∧ Qc_of_Z T < num_val u + c
       ∧ ((∃ p, limit_and_tokenize ids user clock r cfg usage d
                = (Ok (Limited p), r))
          ∨ (T = 0%Z
             ∧ limit_and_tokenize ids user clock r cfg usage d
               = (Raise ZeroDivisionError, r))))
  ∨ (∃ e,
       working_state user clock r cfg usage d = Raise e
       ∧ limit_and_tokenize ids user clock r cfg usage d = (Raise e, r)).
Proof.
  intros c now.
  destruct (working_state user clock r cfg usage d)
    as [[T [u l]]|e] eqn:Hw.
  - destruct (working_state_inv _ _ _ _ _ _ _ _ _ Hw)
      as (tu & lr & _ & _ & _ & ->).
    rewrite (limit_and_tokenize_decide _ _ _ _ _ _ _ _ _ _ Hw).
    destruct (Qclt_le_dec (Qc_of_Z T) (num_val u + c)) as [Hlt|Hle].
    + right; left. exists T, u. split; [done|]. split; [done|].
      rewrite decide_request_reject by done.
      unfold truediv. cbn [num_val]. case_bool_decide as Hz.
      * right. split; [|done]. rewrite <-Z2Qc_inj_0 in Hz.
        by apply Z2Qc_inj in Hz.
      * left. eauto.
    + left. exists T, u. split; [done|]. split; [done|].
      by rewrite decide_request_admit.
  - right; right. exists e. split; [done|].
    unfold limit_and_tokenize. by rewrite Hw.
Qed.

Lemma written_field_kept r key tokens last_refill k f :
  f ≠ "tokens"%string → f ≠ "last_refill"%string →
  hget (expire (hset r key [("tokens"%string, tokens);
                            ("last_refill"%string, last_refill)]) key 120)
    k f
  = hget r k f.
Proof.
  intros Ht Hl. destruct (decide (k = key)) as [->|Hk].
  - by apply written_other_field.
  - unfold hget. by rewrite written_other_key.
Qed.

(** ** What a call may change *)

(** Whatever it returns, a call leaves every key but the user's usage
    key as it was, and under no key does it change a field other than
    [tokens] and [last_refill]: a stored [limit] is never written, not
    even when the usage key and a configuration key coincide. *)
Theorem call_changes_only_usage_fields
    (ids : list Z) (user : string) (clock : Qc) (r : redis)
    (cfg usage : key_template) (d : Z) :
  let r' := (limit_and_tokenize ids user clock r cfg usage d).2 in
  (∀ k, k ≠ usage user → r' !! k = r !! k)
  ∧ (∀ k f, f ≠ "tokens"%string → f ≠ "last_refill"%string →
            hget r' k f = hget r k f).
Proof.
  intros r'. unfold r'.
  destruct (limit_and_tokenize_cases ids user clock r cfg usage d)
    as [(T & u & _ & _ & ->)
       |[(T & u & _ & _ & [[p ->]|[_ ->]])|(e & _ & ->)]];
    cbn [snd]; try done.
  split; [apply written_other_key|].
  intros k f. apply written_field_kept.
Qed.

(** With the default templates the usage key of the user ["config:bob"]
    is the configuration key of ["bob"]; an admitted call for the
    former leaves bob's stored limit in place. *)
Lemma call_changes_only_usage_fields_witness :
  let r := limit_store "bob" (RText "100") in
  let r' := (limit_and_tokenize [7%Z] "config:bob" (Qc_of_Z 100) r
               config_key_template usage_key_template 1000).2 in
  hget r' (config_key_template "bob") "limit" = Some (RText "100")
  ∧ r' !! usage_key_template "bob" = None.
Proof.
  intros r r'.
  destruct (call_changes_only_usage_fields [7%Z] "config:bob" (Qc_of_Z 100)
              r config_key_template usage_key_template 1000)
    as [Hkeys Hfields].
  split.
  - rewrite Hfields; [reflexivity|discriminate|discriminate].
  - rewrite Hkeys; [reflexivity|discriminate].
Defined.

(** ** Only the number of tokens counts *)

(** Two calls that differ only in the content of [token_ids], not in
    its length, leave the same store and give the same answer: both are
    admitted with their own list, or both return the same payload or
    raise the same exception. *)
Theorem only_length_matters
    (ids1 ids2 : list Z) (user : string) (clock : Qc) (r : redis)
    (cfg usage : key_template) (d : Z) :
  length ids1 = length ids2 →
  let out1 := limit_and_tokenize ids1 user clock r cfg usage d in
  let out2 := limit_and_tokenize ids2 user clock r cfg usage d in
  out1.2 = out2.2
  ∧ ((out1.1 = Ok (Tokens ids1) ∧ out2.1 = Ok (Tokens ids2))
     ∨ (out1.1 = out2.1 ∧ ∀ ids, out1.1 ≠ Ok (Tokens ids))).
Proof.
  intros Hlen out1 out2. unfold out1, out2, limit_and_tokenize.
  destruct (working_state user clock r cfg usage d) as [[T [u l]]|e];
    [|split; [done|by right]].
  unfold decide_request. rewrite Hlen.
  destruct (gt _ _).
  - destruct (truediv _ _) as [q|e]; cbn; split; try done; by right.
  - cbn. split; [done|by left].
Qed.

Lemma only_length_matters_witness :
  (limit_and_tokenize [1%Z; 2%Z; 3%Z] "u" (Qc_of_Z 100) ∅
     config_key_template usage_key_template 1000).2
  = (limit_and_tokenize [9%Z; 9%Z; 9%Z] "u" (Qc_of_Z 100) ∅
       config_key_template usage_key_template 1000).2.
Proof.
  apply (only_length_matters [1%Z; 2%Z; 3%Z] [9%Z; 9%Z; 9%Z] "u"
           (Qc_of_Z 100) ∅ config_key_template usage_key_template 1000).
  reflexivity.
Defined.

(** ** The default and the stored limit *)

(** The stored limit and the default reach the call only through the
    limit they resolve to: two configurations that resolve to the same
    limit behave alike.  So a stored limit that [int()] accepts makes
    the default irrelevant. *)
Theorem same_resolved_limit_same_call
    (ids : list Z) (user : string) (clock : Qc) (r : redis)
    (cfg cfg' usage : key_template) (d d' : Z) :
  (resolve_limit r (cfg user) d = resolve_limit r (cfg' user) d' →
   limit_and_tokenize ids user clock r cfg usage d
   = limit_and_tokenize ids user clock r cfg' usage d')
  ∧ (∀ z, py_int (hget r (cfg user) "limit") = Ok z →
          limit_and_tokenize ids user clock r cfg usage d
          = limit_and_tokenize ids user clock r cfg usage d').
Proof.
  assert (∀ c1 c2 e1 e2,
            resolve_limit r (c1 user) e1 = resolve_limit r (c2 user) e2 →
            limit_and_tokenize ids user clock r c1 usage e1
            = limit_and_tokenize ids user clock r c2 usage e2) as Hsame.
  { intros c1 c2 e1 e2 Heq. unfold limit_and_tokenize, working_state.
    by rewrite Heq. }
  split; [apply Hsame|].
  intros z Hz. apply Hsame.
  by rewrite !(resolve_limit_parsed _ _ _ z Hz).
Qed.

Lemma same_resolved_limit_same_call_witness :
  limit_and_tokenize [7%Z] "u" (Qc_of_Z 100) (limit_store "u" (RText "5"))
    config_key_template usage_key_template 1000
  = limit_and_tokenize [7%Z] "u" (Qc_of_Z 100) (limit_store "u" (RText "5"))
      config_key_template usage_key_template 1.
Proof.
  apply (proj2 (same_resolved_limit_same_call [7%Z] "u" (Qc_of_Z 100)
                  (limit_store "u" (RText "5")) config_key_template
                  config_key_template usage_key_template 1000 1) 5%Z).
  reflexivity.
Defined.

(** ** An unreadable usage record *)





(** ** The sign of what is rounded *)



Lemma working_usage_nonneg user clock r cfg usage d T u l :
  working_state user clock r cfg usage d = Ok (T, (u, l)) → 0 ≤ num_val u.
Proof.
  intros (tu & lr & _ & _ & -> & _)%working_state_inv.
  apply refilled_nonneg.
Qed.

Lemma rejected_payload ids user clock r cfg usage d T u l p r' :
  working_state user clock r cfg usage d = Ok (T, (u, l)) →
  limit_and_tokenize ids user clock r cfg usage d = (Ok (Limited p), r') →
  let c := Qc_of_Z (Z.of_nat (length ids)) in
  Qc_of_Z T < num_val u + c
  ∧ p = {| error := "Rate limit exceeded";
           retry_after :=
             round (NFloat ((num_val u + c - Qc_of_Z T) / Qc_of_Z T
                            * Qc_of_Z 60)) 2;
           tokens_requested := Z.of_nat (length ids);
           tokens_available := max (NInt 0) (sub (NInt T) u);
           user_token_limit := T |}.
Proof.
  intros Hw Hrun c.
  rewrite (limit_and_tokenize_decide _ _ _ _ _ _ _ _ _ _ Hw) in Hrun.
  by destruct (decide_request_payload _ _ _ _ _ _ _ _ Hrun) as (_ & ? & ?).
Qed.

(** ** A negative limit *)



(** ** What a rejection reports under a positive limit *)



(** ** A clock that goes back *)



(** ** A user without a usage record *)





(** ** Reading back what an admitted call wrote *)

Lemma read_usage_written r key (s : num) (now t : Z) :
  read_usage
    (expire (hset r key [("tokens"%string, encode s);
                         ("last_refill"%string, RInt now)]) key 120) key t
  = Ok (NFloat (num_val s), NFloat (Qc_of_Z now)).
Proof.
  unfold read_usage.
  rewrite written_tokens, written_last_refill.
  by destruct s.
Qed.

Lemma resolve_limit_written r key tokens last_refill k d :
  resolve_limit
    (expire (hset r key [("tokens"%string, tokens);
                         ("last_refill"%string, last_refill)]) key 120) k d
  = resolve_limit r k d.
Proof. unfold resolve_limit. by rewrite written_field_kept. Qed.

Lemma working_state_after_admit ids user clock clock2 r cfg usage d ids' r' :
  limit_and_tokenize ids user clock r cfg usage d = (Ok (Tokens ids'), r') →
  ∃ T u,
    working_state user clock r cfg usage d
      = Ok (T, (u, NInt (int_of_float clock)))
    ∧ num_val u + Qc_of_Z (Z.of_nat (length ids)) ≤ Qc_of_Z T
    ∧ read_usage r' (usage user) (int_of_float clock2)
      = Ok (NFloat (num_val u + Qc_of_Z (Z.of_nat (length ids))),
            NFloat (Qc_of_Z (int_of_float clock)))
    ∧ working_state user clock2 r' cfg usage d
      = Ok (T, (clamp (num_val u + Qc_of_Z (Z.of_nat (length ids))
                       - (Qc_of_Z (int_of_float clock2)
                          - Qc_of_Z (int_of_float clock))
                         / Qc_of_Z 60 * Qc_of_Z T),
                NInt (int_of_float clock2))).
Proof.
  intros (T & u & Hw & Hle & _ & ->)%limit_and_tokenize_admit_inv.
  exists T, u. split; [done|]. split; [done|].
  destruct (working_state_inv _ _ _ _ _ _ _ _ _ Hw) as (_ & _ & HT & _).
  pose proof (read_usage_written r (usage user)
                (add u (NInt (Z.of_nat (length ids))))
                (int_of_float clock) (int_of_float clock2)) as Hu.
  rewrite num_val_add in Hu. cbn [num_val] in Hu.
  split; [done|].
  rewrite <-(resolve_limit_written r (usage user)
               (encode (add u (NInt (Z.of_nat (length ids)))))
               (RInt (int_of_float clock))) in HT.
  rewrite (proj1 (limit_and_tokenize_run [] _ _ _ _ _ _ _ _ _ HT Hu)).
  by rewrite refilled_clamp, num_val_sub.
Qed.



(** ** A minute later *)

Lemma clamp_nonpos x : x ≤ 0 → clamp x = NInt 0.
Proof.
  intros Hx. unfold clamp. rewrite bool_decide_eq_false_2; [done|].
  by apply Qcle_not_lt.
Qed.

(** Sixty seconds after an admitted call, under an unchanged positive
    limit, nothing of the usage is left: any request of the user that
    does not exceed the limit is admitted, and the record then holds
    that request alone. *)
Theorem full_quota_after_a_minute
    (ids ids2 : list Z) (user : string) (clock clock2 : Qc) (r : redis)
    (cfg usage : key_template) (d T : Z) (u l : num)
    (ids' : list Z) (r' : redis) :
  working_state user clock r cfg usage d = Ok (T, (u, l)) →
  limit_and_tokenize ids user clock r cfg usage d = (Ok (Tokens ids'), r') →
  (0 < T)%Z →
  (int_of_float clock + 60 ≤ int_of_float clock2)%Z →
  (Z.of_nat (length ids2) ≤ T)%Z →
  ∃ r2,
    limit_and_tokenize ids2 user clock2 r' cfg usage d
      = (Ok (Tokens ids2), r2)
    ∧ hget r2 (usage user) "tokens" = Some (RInt (Z.of_nat (length ids2)))
    ∧ hget r2 (usage user) "last_refill" = Some (RInt (int_of_float clock2)).
Proof.
  intros Hw Hrun HT Hlater Hc2.
  destruct (working_state_after_admit _ _ _ clock2 _ _ _ _ _ _ Hrun)
    as (T' & u' & Hw' & Hle & _ & Hw2).
  rewrite Hw in Hw'. injection Hw' as <- <- _.
  rewrite clamp_nonpos in Hw2.
  - rewrite (limit_and_tokenize_decide _ _ _ _ _ _ _ _ _ _ Hw2).
    rewrite decide_request_admit.
    + eexists. split; [done|]. rewrite written_tokens, written_last_refill.
      split; [|done]. unfold add. cbn [encode]. by rewrite Z.add_0_l.
    + cbn [num_val]. rewrite <-Z2Qc_inj_add, <-Z2Qc_inj_le. lia.
  - apply Z2Qc_inj_lt in HT as HTq. rewrite Z2Qc_inj_0 in HTq.
    assert (Qc_of_Z 60 * Qc_of_Z T
            ≤ (Qc_of_Z (int_of_float clock2) - Qc_of_Z (int_of_float clock))
              * Qc_of_Z T) as Hmul.
    { apply Qcmult_le_mono_pos_r; [done|].
      rewrite <-Z2Qc_inj_sub, <-Z2Qc_inj_le. lia. }
    replace ((Qc_of_Z (int_of_float clock2) - Qc_of_Z (int_of_float clock))
             / Qc_of_Z 60 * Qc_of_Z T)
      with ((Qc_of_Z (int_of_float clock2) - Qc_of_Z (int_of_float clock))
            * Qc_of_Z T / Qc_of_Z 60) by (by field).
    set (x := (_ - _) * Qc_of_Z T) in *.
    set (y := Qc_of_Z 60 * Qc_of_Z T) in *.
    assert (y / Qc_of_Z 60 = Qc_of_Z T) as Hy by (unfold y; by field).
    clearbody x y. clear Hw Hrun Hw2. qc_lra.
Qed.

(** 1000 tokens admitted at time 100 under the limit 1000, and 1000
    again at time 160. *)
Lemma full_quota_after_a_minute_witness :
  let ids := repeat 7%Z 1000 in
  let r' := (limit_and_tokenize ids "u" (Qc_of_Z 100) ∅
               config_key_template usage_key_template 1000).2 in
  ∃ r2, limit_and_tokenize ids "u" (Qc_of_Z 160) r'
          config_key_template usage_key_template 1000
        = (Ok (Tokens ids), r2).
Proof.
  intros ids r'.
  destruct (full_quota_after_a_minute ids ids "u" (Qc_of_Z 100)
              (Qc_of_Z 160) ∅ config_key_template usage_key_template
              1000 1000 (NInt 0) (NInt 100) ids r')
    as (r2 & Hrun & _).
  - apply (bool_decide_unpack _). by vm_compute.
  - apply (bool_decide_unpack _). by vm_compute.
  - lia.
  - by vm_compute.
  - by vm_compute.
  - exists r2. exact Hrun.
Defined.

(** ** Calls of different users *)

Local Abbreviation written r key tokens last_refill :=
  (expire (hset r key [("tokens"%string, tokens);
                       ("last_refill"%string, last_refill)]) key 120).









(** ** The default key templates overlap *)

(** With the default templates the usage key of the user
    ["config:" + u] is the configuration key of [u].  An admitted call
    for that user keeps the stored limit of [u] but adds [tokens] and
    [last_refill] to the hash that holds it and gives that hash 120
    seconds to live. *)
Theorem default_templates_overlap
    (ids : list Z) (u : string) (clock : Qc) (r : redis) (d : Z)
    (ids' : list Z) (r' : redis) :
  limit_and_tokenize ids ("config:" +:+ u) clock r
    config_key_template usage_key_template d = (Ok (Tokens ids'), r') →
  usage_key_template ("config:" +:+ u) = config_key_template u
  ∧ hget r' (config_key_template u) "limit"
    = hget r (config_key_template u) "limit"
  ∧ hget r' (config_key_template u) "last_refill"
    = Some (RInt (int_of_float clock))
  ∧ ttl <$> r' !! config_key_template u = Some (Some 120%Z).
Proof.
  intros (T & w & _ & _ & _ & ->)%limit_and_tokenize_admit_inv.
  assert (usage_key_template ("config:" +:+ u) = config_key_template u)
    as Hkey by reflexivity.
  split; [done|]. rewrite <-Hkey.
  split; [by apply written_field_kept|].
  split; [apply written_last_refill|apply written_ttl].
Qed.

(** Bob has a stored limit of 100 that does not expire; one token
    admitted for the user ["config:bob"] puts 120 seconds on it. *)
Lemma default_templates_overlap_witness :
  let r := limit_store "bob" (RText "100") in
  ttl <$> r !! config_key_template "bob" = Some None
  ∧ ttl <$> (limit_and_tokenize [7%Z] "config:bob" (Qc_of_Z 100) r
               config_key_template usage_key_template 1000).2
            !! config_key_template "bob"
    = Some (Some 120%Z).
Proof.
  intros r. split; [reflexivity|].
  set (run := limit_and_tokenize [7%Z] "config:bob" (Qc_of_Z 100) r
                config_key_template usage_key_template 1000).
  apply (default_templates_overlap [7%Z] "bob" (Qc_of_Z 100) r 1000
           [7%Z] run.2).
  apply (bool_decide_unpack _). by vm_compute.
Defined.

(** ** The rate over a sequence of calls *)

Lemma read_usage_raise_any r key t t' e :
  read_usage r key t = Raise e → read_usage r key t' = Raise e.
Proof.
  unfold read_usage.
  destruct (if truthy (hget r key "tokens") then _ else _) as [tu|e'];
    [|done].
  destruct (truthy (hget r key "last_refill")); [|done].
  by destruct (NFloat <$> py_float _).
Qed.

Lemma usage_at_nonneg T r key t : 0 ≤ usage_at T r key t.
Proof.
  unfold usage_at. destruct (read_usage r key t) as [[tu lr]|e]; [|done].
  apply refilled_nonneg.
Qed.

Lemma refill_of_nonneg (T Δ : Z) :
  (0 ≤ T)%Z → (0 ≤ Δ)%Z → 0 ≤ Qc_of_Z Δ / Qc_of_Z 60 * Qc_of_Z T.
Proof.
  intros HT%Z2Qc_inj_le HΔ%Z2Qc_inj_le. rewrite Z2Qc_inj_0 in HT, HΔ.
  apply Qcmult_nonneg_nonneg; [|done].
  apply Qcmult_nonneg_nonneg; [done|done].
Qed.

Lemma usage_at_later T r key t t' :
  (0 ≤ T)%Z → (t ≤ t')%Z →
  usage_at T r key t' ≤ usage_at T r key t
  ∧ usage_at T r key t
    ≤ usage_at T r key t' + Qc_of_Z (t' - t) / Qc_of_Z 60 * Qc_of_Z T.
Proof.
  intros HT Ht.
  pose proof (refill_of_nonneg T (t' - t) HT ltac:(lia)) as Hb.
  set (b := Qc_of_Z (t' - t) / Qc_of_Z 60 * Qc_of_Z T) in *.
  unfold usage_at.
  destruct (read_usage r key t) as [[tu lr]|e] eqn:Hu.
  - destruct (read_usage_retry _ _ _ t' _ _ Hu) as [[_ ->]|(_ & -> & ->)];
      rewrite !refilled_val, !num_val_sub; cbn [num_val].
    + replace ((Qc_of_Z t' - num_val lr) / Qc_of_Z 60 * Qc_of_Z T)
        with ((Qc_of_Z t - num_val lr) / Qc_of_Z 60 * Qc_of_Z T + b)
        by (unfold b; rewrite Z2Qc_inj_sub; by field).
      set (a := (Qc_of_Z t - num_val lr) / Qc_of_Z 60 * Qc_of_Z T).
      clearbody a b. clear Hu. unfold qmax.
      repeat case_bool_decide; split; qc_lra.
    + replace ((Qc_of_Z t' - Qc_of_Z t') / Qc_of_Z 60 * Qc_of_Z T)
        with (Q2Qc 0) by (by field).
      replace ((Qc_of_Z t - Qc_of_Z t) / Qc_of_Z 60 * Qc_of_Z T)
        with (Q2Qc 0) by (by field).
      clearbody b. clear Hu. split; [done|].
      pose proof (qmax_0_nonneg (num_val tu - 0)). 
      set (g := qmax 0 (num_val tu - 0)) in *. clearbody g. qc_lra.
  - rewrite (read_usage_raise_any _ _ _ t' _ Hu).
    clearbody b. clear Hu. split; [done|]. qc_lra.
Qed.

Lemma usage_at_working_state user clock r cfg usage d T u l :
  working_state user clock r cfg usage d = Ok (T, (u, l)) →
  usage_at T r (usage user) (int_of_float clock) = num_val u.
Proof.
  intros (tu & lr & _ & Hu & -> & _)%working_state_inv.
  unfold usage_at. by rewrite Hu.
Qed.

Lemma usage_at_written T r key (s : num) (now : Z) :
  0 ≤ num_val s →
  usage_at T (written r key (encode s) (RInt now)) key now = num_val s.
Proof.
  intros Hs. unfold usage_at. rewrite read_usage_written.
  rewrite refilled_val, num_val_sub. cbn [num_val].
  replace (num_val s - (Qc_of_Z now - Qc_of_Z now) / Qc_of_Z 60 * Qc_of_Z T)
    with (num_val s) by (by field).
  unfold qmax. case_bool_decide; [done|].
  apply Qcle_antisym; [done|by apply Qcnot_lt_le].
Qed.

Lemma last_now_ge t cs : clocks_from t cs → (t ≤ last_now t cs)%Z.
Proof.
  revert t. induction cs as [|c cs IH]; intros t; simpl; [lia|].
  intros [Ht Hcs]. specialize (IH _ Hcs). lia.
Qed.

Lemma rate_invariant cfg usage user d T :
  (0 < T)%Z →
  ∀ cs r t,
    resolve_limit r (cfg user) d = Ok T →
    Forall (λ c, call_user_id c = user ∧ call_default c = d) cs →
    clocks_from t cs →
    Qc_of_Z (admitted_tokens (run_calls cfg usage r cs))
      + usage_at T r (usage user) t
    ≤ qmax (Qc_of_Z T) (usage_at T r (usage user) t)
      + Qc_of_Z (last_now t cs - t) / Qc_of_Z 60 * Qc_of_Z T.
Proof.
  intros HT cs. induction cs as [|c cs IH]; intros r t Hlimit Hcs Hclk.
  - simpl. rewrite Z.sub_diag.
    replace (Qc_of_Z 0 / Qc_of_Z 60 * Qc_of_Z T) with (Q2Qc 0)
      by (rewrite Z2Qc_inj_0; by field).
    rewrite Z2Qc_inj_0. set (g := usage_at _ _ _ _). clearbody g.
    unfold qmax. case_bool_decide; qc_lra.
  - apply Forall_cons in Hcs as [[Huser Hd] Hcs].
    destruct Hclk as [Ht Hclk]. destruct c as [ids user' clock d'].
    cbn in Huser, Hd. subst user' d'.
    cbn [run_calls admitted_tokens foldr last_now call_now call_clock].
    fold (admitted_tokens (run_calls cfg usage
            (run_call cfg usage r (Call ids user clock d)).2 cs)).
    unfold call_now in Ht, Hclk |- *. cbn [call_clock] in Ht, Hclk |- *.
    set (t1 := int_of_float clock) in *.
    pose proof (last_now_ge _ _ Hclk) as Hlast. fold call_now in Hlast.
    set (tn := last_now t1 cs) in *.
    pose proof (refill_of_nonneg T (t1 - t) ltac:(lia) ltac:(lia)) as Hx1.
    pose proof (refill_of_nonneg T (tn - t1) ltac:(lia) ltac:(lia)) as Hx2.
    assert (Qc_of_Z (tn - t) / Qc_of_Z 60 * Qc_of_Z T
            = Qc_of_Z (t1 - t) / Qc_of_Z 60 * Qc_of_Z T
              + Qc_of_Z (tn - t1) / Qc_of_Z 60 * Qc_of_Z T) as ->.
    { rewrite !Z2Qc_inj_sub. by field. }
    destruct (usage_at_later T r (usage user) t t1 ltac:(lia) Ht)
      as [Hdown Hup].
    pose proof (usage_at_nonneg T r (usage user) t) as Hg0.
    set (x1 := Qc_of_Z (t1 - t) / Qc_of_Z 60 * Qc_of_Z T) in *.
    set (x2 := Qc_of_Z (tn - t1) / Qc_of_Z 60 * Qc_of_Z T) in *.
    unfold run_call. cbn [call_token_ids call_user_id call_clock call_default].
    destruct (limit_and_tokenize_cases ids user clock r cfg usage d)
      as [(T' & u & Hw & Hle & Hrun)
         |[(T' & u & Hw & _ & [[p Hrun]|[_ Hrun]])|(e & Hw & Hrun)]];
      rewrite Hrun; cbn [snd admitted_count].
    + destruct (working_state_inv _ _ _ _ _ _ _ _ _ Hw)
        as (_ & _ & HT' & _).
      rewrite Hlimit in HT'. injection HT' as <-.
      pose proof (usage_at_working_state _ _ _ _ _ _ _ _ _ Hw) as Hgu.
      fold t1 in Hgu, Hw. 
      pose proof (working_usage_nonneg _ _ _ _ _ _ _ _ _ Hw) as Hu0.
      pose proof (token_count_nonneg ids) as Hk0.
      set (s := add u (NInt (Z.of_nat (length ids)))).
      assert (num_val s = num_val u + Qc_of_Z (Z.of_nat (length ids)))
        as Hs by apply num_val_add.
      specialize (IH (written r (usage user) (encode s) (RInt t1)) t1).
      rewrite resolve_limit_written in IH.
      specialize (IH Hlimit Hcs Hclk).
      rewrite usage_at_written in IH by (rewrite Hs; clear -Hu0 Hk0; qc_lra).
      fold tn x2 in IH. rewrite Hs in IH. rewrite Z2Qc_inj_add.
      set (A := Qc_of_Z (admitted_tokens _)) in *.
      set (k := Qc_of_Z (Z.of_nat (length ids))) in *.
      set (g := usage_at T r (usage user) t) in *.
      rewrite Hgu in Hup, Hdown.
      clearbody A k g x1 x2. clear -IH Hle Hup Hg0. revert IH.
      unfold qmax. repeat case_bool_decide; intros; qc_lra.
    + specialize (IH r t1 Hlimit Hcs Hclk). fold tn x2 in IH.
      rewrite Z.add_0_l.
      set (A := Qc_of_Z (admitted_tokens _)) in *.
      set (g := usage_at T r (usage user) t) in *.
      set (g1 := usage_at T r (usage user) t1) in *.
      clearbody A g g1 x1 x2. clear -IH Hup Hdown Hg0 Hx1. revert IH.
      unfold qmax. repeat case_bool_decide; intros; qc_lra.
    + specialize (IH r t1 Hlimit Hcs Hclk). fold tn x2 in IH.
      rewrite Z.add_0_l.
      set (A := Qc_of_Z (admitted_tokens _)) in *.
      set (g := usage_at T r (usage user) t) in *.
      set (g1 := usage_at T r (usage user) t1) in *.
      clearbody A g g1 x1 x2. clear -IH Hup Hdown Hg0 Hx1. revert IH.
      unfold qmax. repeat case_bool_decide; intros; qc_lra.
    + specialize (IH r t1 Hlimit Hcs Hclk). fold tn x2 in IH.
      rewrite Z.add_0_l.
      set (A := Qc_of_Z (admitted_tokens _)) in *.
      set (g := usage_at T r (usage user) t) in *.
      set (g1 := usage_at T r (usage user) t1) in *.
      clearbody A g g1 x1 x2. clear -IH Hup Hdown Hg0 Hx1. revert IH.
      unfold qmax. repeat case_bool_decide; intros; qc_lra.
Qed.

(** The rate the limiter keeps.  Take any sequence of calls of one
    user, in the order of their [now], under one default and a positive
    limit, from any store.  The tokens the admitted calls let through
    are at most the limit plus what the limit refills between the first
    and the last [now]: one full bucket and [tokens_per_minute] for each
    minute, whatever was rejected or raised in between. *)
Theorem admitted_tokens_within_rate
    (cfg usage : key_template) (user : string) (d T : Z)
    (cs : list call) (r : redis) (t : Z) :
  (0 < T)%Z →
  resolve_limit r (cfg user) d = Ok T →
  Forall (λ c, call_user_id c = user ∧ call_default c = d) cs →
  clocks_from t cs →
  Qc_of_Z (admitted_tokens (run_calls cfg usage r cs))
  ≤ Qc_of_Z T + Qc_of_Z (last_now t cs - t) / Qc_of_Z 60 * Qc_of_Z T.
Proof.
  intros HT Hlimit Hcs Hclk.
  pose proof (rate_invariant cfg usage user d T HT cs r t Hlimit Hcs Hclk)
    as Hinv.
  pose proof (usage_at_nonneg T r (usage user) t) as Hg.
  apply Z2Qc_inj_lt in HT. rewrite Z2Qc_inj_0 in HT.
  set (A := Qc_of_Z (admitted_tokens _)) in *.
  set (g := usage_at T r (usage user) t) in *.
  set (x := Qc_of_Z (last_now t cs - t) / Qc_of_Z 60 * Qc_of_Z T) in *.
  clearbody A g x. clear -Hinv Hg HT. revert Hinv.
  unfold qmax. case_bool_decide; intros; qc_lra.
Qed.

(** Three requests of 600 tokens under the limit 1000: admitted at time
    100, refused at time 100, admitted at time 130.  1200 tokens in 30
    seconds, within 1000 + 500. *)
Lemma admitted_tokens_within_rate_witness :
  let cs := [Call (repeat 7%Z 600) "u" (Qc_of_Z 100) 1000;
             Call (repeat 7%Z 600) "u" (Qc_of_Z 100) 1000;
             Call (repeat 7%Z 600) "u" (Qc_of_Z 130) 1000] in
  admitted_tokens (run_calls config_key_template usage_key_template ∅ cs)
  = 1200%Z
  ∧ Qc_of_Z (admitted_tokens
               (run_calls config_key_template usage_key_template ∅ cs))
    ≤ Qc_of_Z 1000 + Qc_of_Z (130 - 100) / Qc_of_Z 60 * Qc_of_Z 1000.
Proof.
  intros cs. split; [by vm_compute|].
  apply (admitted_tokens_within_rate config_key_template usage_key_template
           "u" 1000 1000 cs ∅ 100).
  - lia.
  - reflexivity.
  - repeat constructor.
  - repeat split; by vm_compute.
Defined.

(** ** How long a rejection asks to wait *)

Lemma round_2_le_whole (q : Qc) (n : Z) :
  q ≤ Qc_of_Z n → num_val (round (NFloat q) 2) ≤ Qc_of_Z n.
Proof.
  intros Hq. unfold round. cbn [num_val]. change (10 ^ 2)%Z with 100%Z.
  destruct (round_half_even_near (q * Qc_of_Z 100)) as [_ Hhi].
  set (k := round_half_even _) in *. clearbody k.
  assert (k ≤ n * 100)%Z as Hk.
  { assert (Qc_of_Z k < Qc_of_Z (n * 100 + 1)) as Hlt;
      [|rewrite <-Z2Qc_inj_lt in Hlt; lia].
    rewrite Z2Qc_inj_add, Z2Qc_inj_mul. qc_lra. }
  apply Z2Qc_inj_le in Hk. rewrite Z2Qc_inj_mul in Hk.
  clear Hhi Hq. qc_lra.
Qed.

(** After an admitted call, under an unchanged positive limit and a
    clock that does not go back, a request of the user that does not
    exceed the limit may be rejected, but never with a [retry_after]
    above 60 seconds. *)
Theorem retry_after_at_most_a_minute
    (ids ids2 : list Z) (user : string) (clock clock2 : Qc) (r : redis)
    (cfg usage : key_template) (d T : Z) (u l : num)
    (ids' : list Z) (r' r2 : redis) (p : payload) :
  working_state user clock r cfg usage d = Ok (T, (u, l)) →
  limit_and_tokenize ids user clock r cfg usage d = (Ok (Tokens ids'), r') →
  (0 < T)%Z →
  (int_of_float clock ≤ int_of_float clock2)%Z →
  (Z.of_nat (length ids2) ≤ T)%Z →
  limit_and_tokenize ids2 user clock2 r' cfg usage d
    = (Ok (Limited p), r2) →
  num_val (retry_after p) ≤ Qc_of_Z 60.
Proof.
  intros Hw Hrun HT Hlater Hc2 Hrun2.
  destruct (working_state_after_admit _ _ _ clock2 _ _ _ _ _ _ Hrun)
    as (T' & u' & Hw' & Hle & _ & Hw2).
  rewrite Hw in Hw'. injection Hw' as <- <- _.
  destruct (rejected_payload _ _ _ _ _ _ _ _ _ _ _ _ Hw2 Hrun2) as [_ ->].
  cbn [retry_after]. apply round_2_le_whole.
  rewrite num_val_clamp.
  pose proof (refill_of_nonneg T (int_of_float clock2 - int_of_float clock)
                ltac:(lia) ltac:(lia)) as Hb.
  rewrite Z2Qc_inj_sub in Hb.
  set (b := (Qc_of_Z (int_of_float clock2) - Qc_of_Z (int_of_float clock))
            / Qc_of_Z 60 * Qc_of_Z T) in *.
  set (s := num_val u + Qc_of_Z (Z.of_nat (length ids))) in *.
  set (c2 := Qc_of_Z (Z.of_nat (length ids2))).
  apply Z2Qc_inj_le in Hc2 as Hc2q. fold c2 in Hc2q.
  apply Z2Qc_inj_lt in HT as HTq. rewrite Z2Qc_inj_0 in HTq.
  assert (Qc_of_Z T ≠ 0) as HTnz by (apply Z2Qc_nonzero; lia).
  assert (qmax 0 (s - b) + c2 - Qc_of_Z T ≤ Qc_of_Z T) as Hover.
  { clearbody s b c2. clear -Hle Hb Hc2q HTq. unfold qmax.
    case_bool_decide; qc_lra. }
  set (over := qmax 0 (s - b) + c2 - Qc_of_Z T) in *.
  assert (over / Qc_of_Z T * Qc_of_Z T ≤ Qc_of_Z T) as Hdiv.
  { replace (over / Qc_of_Z T * Qc_of_Z T) with over by (by field). done. }
  replace (Qc_of_Z T) with (1 * Qc_of_Z T) in Hdiv at 3 by ring.
  apply Qcmult_le_mono_pos_r in Hdiv; [|done].
  set (y := over / Qc_of_Z T) in *. clearbody y.
  clear -Hdiv. qc_lra.
Qed.

(** 600 tokens admitted at time 100 under the limit 1000, 1000 more
    asked for at once: refused, to be retried in 36 seconds. *)
Lemma retry_after_at_most_a_minute_witness :
  let r' := (limit_and_tokenize (repeat 7%Z 600) "u" (Qc_of_Z 100) ∅
               config_key_template usage_key_template 1000).2 in
  ∃ p, (limit_and_tokenize (repeat 7%Z 1000) "u" (Qc_of_Z 100) r'
          config_key_template usage_key_template 1000).1 = Ok (Limited p)
     ∧ num_val (retry_after p) ≤ Qc_of_Z 60.
Proof.
  intros r'.
  set (run := limit_and_tokenize (repeat 7%Z 1000) "u" (Qc_of_Z 100) r'
                config_key_template usage_key_template 1000).
  assert (∃ p, run = (Ok (Limited p), run.2)) as [p Hp].
  { eexists. vm_compute. reflexivity. }
  exists p. split; [by rewrite Hp|].
  apply (retry_after_at_most_a_minute (repeat 7%Z 600) (repeat 7%Z 1000)
           "u" (Qc_of_Z 100) (Qc_of_Z 100) ∅ config_key_template
           usage_key_template 1000 1000 (NInt 0) (NInt 100)
           (repeat 7%Z 600) r' run.2 p).
  - apply (bool_decide_unpack _). by vm_compute.
  - apply (bool_decide_unpack _). by vm_compute.
  - lia.
  - by vm_compute.
  - by vm_compute.
  - exact Hp.
Defined.
